(** * regextual: the match-and-render pipeline of [regex-tester/app.py]

    A shallow embedding of [RegexTesterApp._update_matches] and of the
    string operations it is built from, followed by the properties the
    specification states about them.

    Python [str] values are modelled as [string]; indices, spans and lengths
    as [nat] (the spans of group 0 of a successful match are never negative).
    The regular-expression library [re] is an external capability: the
    pipeline is parameterised by it (record [RegexEngine]). *)

From Stdlib Require Import String Ascii List Arith Lia Bool DecimalString.
Import ListNotations.
Open Scope string_scope.

(* ================================================================== *)
(** * Python string primitives used by the source *)
(* ================================================================== *)

Module PyStr.

(** The newline character of the [\n] escapes in the source's literals. *)
Definition nl : string := String (ascii_of_nat 10) "".

(** [f"{n}"] for a non-negative [int]. *)
Definition str_of_int (n : nat) : string :=
  NilEmpty.string_of_uint (Nat.to_uint n).

(** [s[lo:hi]] for non-negative bounds: empty when [hi <= lo], clamped to
    the end of [s]. *)
Definition slice (s : string) (lo hi : nat) : string :=
  substring lo (hi - lo) s.

(** [s[lo:]]. *)
Definition slice_from (s : string) (lo : nat) : string :=
  substring lo (String.length s - lo) s.

(** [sep.join(parts)]. *)
Definition join (sep : string) (parts : list string) : string :=
  String.concat sep parts.

(** Truthiness of a [str]: [not s] holds exactly for the empty string. *)
Definition is_empty (s : string) : bool :=
  match s with
  | EmptyString => true
  | String _ _ => false
  end.

End PyStr.
Import PyStr.

(* ================================================================== *)
(** * The escape step *)
(* ================================================================== *)

(** The character class of the source's pattern
    [[*_`\[\]\(\)!#\-\+\.]]: twelve characters. *)
Definition md_special_chars : list ascii :=
  ["*"; "_"; "`"; "["; "]"; "("; ")"; "!"; "#"; "-"; "+"; "."]%char.

Definition md_special (c : ascii) : bool :=
  existsb (Ascii.eqb c) md_special_chars.

Definition backslash : ascii := "\"%char.
Definition star : ascii := "*"%char.

(** [re.sub(r"([*_`\[\]\(\)!#\-\+\.])", r"\\\1", s)]: every character of the
    class is replaced by a backslash followed by that character; the scan is
    left to right over single characters, so the replacement text is never
    scanned again. *)
Fixpoint escape_md (s : string) : string :=
  match s with
  | EmptyString => EmptyString
  | String c rest =>
      if md_special c
      then String backslash (String c (escape_md rest))
      else String c (escape_md rest)
  end.

(* ================================================================== *)
(** * Match objects and the regex capability *)
(* ================================================================== *)

(** What the pipeline reads from a [re.Match]: [span()], [group(0)],
    [groups()] and [groupdict()] (in the dictionary's iteration order). A
    group that did not take part in the match is [None]. *)
Record MatchObj : Type := mkMatch {
  span : nat * nat;
  group0 : string;
  groups : list (option string);
  groupdict : list (string * option string)
}.

(** Outcome of [re.compile(pattern)]: a compiled pattern, an [re.error], or
    any other [Exception]; the errors carry [str(e)]. *)
Inductive compile_result (P : Type) : Type :=
| Compiled (compiled_regex : P)
| ReError (e : string)
| OtherError (e : string).
Arguments Compiled {P} _.
Arguments ReError {P} _.
Arguments OtherError {P} _.

(** Outcome of draining [compiled.finditer(subject)]: the matches it
    yields, or the matches yielded before an [Exception] with [str(e)]. *)
Inductive scan_result : Type :=
| Yielded (ms : list MatchObj)
| Raised (ms : list MatchObj) (e : string).

Record RegexEngine : Type := mkEngine {
  Pattern : Type;
  re_compile : string -> compile_result Pattern;
  finditer : Pattern -> string -> scan_result
}.

(* ================================================================== *)
(** * The render loop (lines 154-199 of app.py) *)
(* ================================================================== *)

(** The three locals the loop updates. *)
Record LoopVars : Type := mkVars {
  matches_details_md : list string;
  highlighted_text_parts_for_md : list string;
  last_char_index : nat
}.

Definition loop_init : LoopVars :=
  {| matches_details_md := [];
     highlighted_text_parts_for_md := [];
     last_char_index := 0 |}.

(** [re.sub(..., g) if g is not None else "None"]. *)
Definition escaped_or_None (g : option string) : string :=
  match g with
  | Some v => escape_md v
  | None => "None"
  end.

Definition group_str_parts (gs : list (option string)) : list string :=
  map (fun g => "`" ++ escaped_or_None g ++ "`") gs.

Definition named_group_parts (gd : list (string * option string)) : list string :=
  map (fun kv => fst kv ++ "=`" ++ escaped_or_None (snd kv) ++ "`") gd.

(** The head line of a detail entry. *)
Definition match_head (escaped_match_segment : string) (start end_ : nat) : string :=
  "- **Match**: `" ++ escaped_match_segment ++ "` (span=(" ++
  str_of_int start ++ ", " ++ str_of_int end_ ++ "))".

Definition groups_line (gs : list (option string)) : string :=
  nl ++ "  - Groups (" ++ str_of_int (List.length gs) ++ "): (" ++
  join ", " (group_str_parts gs) ++ ")".

Definition named_groups_line (gd : list (string * option string)) : string :=
  nl ++ "  - Named Groups: {" ++ join ", " (named_group_parts gd) ++ "}".

(** The detail entry [match_info] of one match (lines 175-191). *)
Definition match_info (match_obj : MatchObj) : string :=
  let '(start, end_) := span match_obj in
  let escaped_match_segment := escape_md (group0 match_obj) in
  let info := match_head escaped_match_segment start end_ in
  let info :=
    match groups match_obj with
    | [] => info
    | _ :: _ => info ++ groups_line (groups match_obj)
    end in
  match groupdict match_obj with
  | [] => info
  | _ :: _ => info ++ named_groups_line (groupdict match_obj)
  end.

(** One iteration of [for match_obj in compiled_regex.finditer(...)]. *)
Definition loop_body (current_test_str : string) (vars : LoopVars)
    (match_obj : MatchObj) : LoopVars :=
  let '(start, end_) := span match_obj in
  let matched_text_segment := group0 match_obj in
  let non_match_part := slice current_test_str (last_char_index vars) start in
  let escaped_non_match := escape_md non_match_part in
  let escaped_match_segment := escape_md matched_text_segment in
  {| matches_details_md := matches_details_md vars ++ [match_info match_obj];
     highlighted_text_parts_for_md :=
       highlighted_text_parts_for_md vars ++
       [escaped_non_match; "**" ++ escaped_match_segment ++ "**"];
     last_char_index := end_ |}.

Definition run_loop (current_test_str : string) (ms : list MatchObj) : LoopVars :=
  fold_left (loop_body current_test_str) ms loop_init.

(** The parts after the trailing segment has been appended (lines 195-197). *)
Definition all_parts (current_test_str : string) (ms : list MatchObj) : list string :=
  let vars := run_loop current_test_str ms in
  let final_non_match_part := slice_from current_test_str (last_char_index vars) in
  highlighted_text_parts_for_md vars ++ [escape_md final_non_match_part].

(** [highlighted_output_for_markdown] (line 199). *)
Definition highlighted_output_for_markdown (current_test_str : string)
    (ms : list MatchObj) : string :=
  join "" (all_parts current_test_str ms).

Definition details_of (current_test_str : string) (ms : list MatchObj) : list string :=
  matches_details_md (run_loop current_test_str ms).

(* ================================================================== *)
(** * The reactive controller: [_update_matches] (lines 121-217) *)
(* ================================================================== *)

(** The two reactive fields and the contents of the two widgets the method
    writes to ([#regex_status] and [#match_results]). *)
Record App : Type := mkApp {
  regex_pattern : string;
  test_string : string;
  regex_status : string;
  match_results : string
}.

(** [status_label.update(text)]. *)
Definition status_update (text : string) (self : App) : App :=
  {| regex_pattern := regex_pattern self;
     test_string := test_string self;
     regex_status := text;
     match_results := match_results self |}.

(** [await results_markdown.update(text)]. *)
Definition results_update (text : string) (self : App) : App :=
  {| regex_pattern := regex_pattern self;
     test_string := test_string self;
     regex_status := regex_status self;
     match_results := text |}.

(** The calls one invocation makes to the regex capability, in order:
    [re.compile(pattern)] (line 138) and
    [compiled_regex.finditer(current_test_str)] (line 159). The log is kept
    beside the state, so that "was not called" can be stated. *)
Inductive engine_call : Type :=
| CallCompile (pattern : string)
| CallFinditer (subject : string).

Record Run : Type := mkRun {
  after : App;
  calls : list engine_call
}.

Definition fenced (title e : string) : string :=
  "### " ++ title ++ nl ++ nl ++ "```" ++ nl ++ e ++ nl ++ "```".

(** [results_content] of the branch [if matches_details_md:] (lines 207-209). *)
Definition results_content (highlighted : string) (details : list string) : string :=
  ("### Highlighted Text:" ++ nl ++ nl) ++
  (if is_empty highlighted
   then "(No visual text to highlight if all is matched or empty)"
   else highlighted) ++
  (nl ++ nl ++ "### Match Details:" ++ nl ++ nl) ++ join (nl ++ nl) details.

(** The document of the branch [else:] (lines 212-217). *)
Definition no_match_document (current_test_str : string) : string :=
  if is_empty current_test_str
  then "No matches found."
  else "No matches found in:" ++ nl ++ nl ++ escape_md current_test_str.

Section Controller.

Variable E : RegexEngine.

Definition _update_matches (self : App) : Run :=
  let pattern := regex_pattern self in
  let current_test_str := test_string self in
  if is_empty pattern then
    let self := status_update "Regex Status: (Enter a pattern)" self in
    let self := results_update "Enter a regex pattern to see matches." self in
    mkRun self []
  else
    match re_compile E pattern with
    | ReError e =>
        let self := status_update ("Regex Status: [b red]Invalid[/b] - " ++ e) self in
        let self := results_update (fenced "Regex Error" e) self in
        mkRun self [CallCompile pattern]
    | OtherError e =>
        let self :=
          status_update ("Regex Status: [b red]Error[/b] - Unexpected: " ++ e) self in
        let self := results_update (fenced "Unexpected Compilation Error" e) self in
        mkRun self [CallCompile pattern]
    | Compiled compiled_regex =>
        let self := status_update "Regex Status: [b green]Valid[/b]" self in
        if is_empty current_test_str then
          let self := results_update "Enter a test string to find matches." self in
          mkRun self [CallCompile pattern]
        else
          let log := [CallCompile pattern; CallFinditer current_test_str] in
          match finditer E compiled_regex current_test_str with
          | Raised _ e =>
              let self :=
                status_update
                  ("Regex Status: [b red]Error during matching[/b] - " ++ e) self in
              let self := results_update (fenced "Matching Error" e) self in
              mkRun self log
          | Yielded ms =>
              let details := details_of current_test_str ms in
              let highlighted :=
                highlighted_output_for_markdown current_test_str ms in
              match details with
              | _ :: _ =>
                  mkRun (results_update (results_content highlighted details) self) log
              | [] =>
                  mkRun (results_update (no_match_document current_test_str) self) log
              end
          end
    end.

End Controller.

(* ================================================================== *)
(** * The scan behind [finditer] *)
(* ================================================================== *)

Module Scan.

(** What an anchored attempt reports: the length of the match and its
    positional and named groups. *)
Definition attempt : Type :=
  (nat * list (option string) * list (string * option string))%type.

Section Collector.

(** The matching capability proper: [match_at subject p] tries the
    pattern at position [p] of [subject] only. *)
Variable match_at : string -> nat -> option attempt.

(** Modelled from the spec: the leftmost search of the regex library's
    scan, which is not in the repository (section 4.3, leftmost-first
    semantics): the first position among [pos], [pos+1], ... (at most [n] of
    them) where an attempt succeeds. *)
Fixpoint search (subject : string) (n pos : nat) : option (nat * attempt) :=
  match n with
  | 0 => None
  | S n' =>
      match match_at subject pos with
      | Some a => Some (pos, a)
      | None => search subject n' (S pos)
      end
  end.

(** Modelled from the spec: the search tries the positions from [pos] to
    the end of the subject, the end included (a zero-width match may sit
    there). *)
Definition leftmost (subject : string) (pos : nat) : option (nat * attempt) :=
  search subject (S (String.length subject) - pos) pos.

(** Modelled from the spec: where the next search starts after a match of
    length [len] that ends at [end_] (section 4.3: at [end_], and one
    position further after a zero-width match). *)
Definition next_pos (len end_ : nat) : nat :=
  if Nat.eqb len 0 then S end_ else end_.

(** Modelled from the spec: the scan loop of [finditer], which belongs
    to the regex library and is not in the repository. The spec's words
    (section 4.3): after a match ending at position e the next search
    starts at e; after a zero-width match the scan still advances by at
    least one position. [fuel] bounds the number of matches. *)
Fixpoint scan (fuel : nat) (subject : string) (pos : nat) : list MatchObj :=
  match fuel with
  | 0 => []
  | S fuel' =>
      match leftmost subject pos with
      | None => []
      | Some (start, (len, gs, gd)) =>
          let end_ := start + len in
          mkMatch (start, end_) (slice subject start end_) gs gd
            :: scan fuel' subject (next_pos len end_)
      end
  end.

(** Modelled from the spec: the whole scan of a subject, from position 0.
    Every match starts at a position of its own among [0 .. len(subject)],
    so this fuel is never used up ([collect_fuel_enough]). *)
Definition collect (subject : string) : list MatchObj :=
  scan (S (String.length subject)) subject 0.

End Collector.

End Scan.

(** An engine whose [finditer] is the scan above over a family of anchored
    matchers, one per compiled pattern. *)
Definition scanning_engine (P : Type) (compile : string -> compile_result P)
    (match_at : P -> string -> nat -> option Scan.attempt) : RegexEngine :=
  {| Pattern := P;
     re_compile := compile;
     finditer := fun re subject => Yielded (Scan.collect (match_at re) subject) |}.

(* ================================================================== *)
(** * A small engine for the scenarios of the specification *)
(* ================================================================== *)

Module Sample.

(** Modelled from the spec: the regex library on the patterns of the
    scenarios of section 8; the library itself is not in the repository.
    The fragment: a literal word, [c*] and [c+] over a character class, and
    [(?P<name>c+)]. *)
Inductive pattern : Type :=
| Literal (word : string)
| ClassStar (cls : ascii -> bool)
| ClassPlus (cls : ascii -> bool)
| NamedPlus (name : string) (cls : ascii -> bool).

Definition between (lo hi : nat) (c : ascii) : bool :=
  Nat.leb lo (nat_of_ascii c) && Nat.leb (nat_of_ascii c) hi.

Definition is_lower : ascii -> bool := between 97 122.

Definition is_word (c : ascii) : bool :=
  between 97 122 c || between 65 90 c || between 48 57 c || Ascii.eqb c "_".

(** Length of the longest prefix of [s] inside the class. *)
Fixpoint run_length (cls : ascii -> bool) (s : string) : nat :=
  match s with
  | String c rest => if cls c then S (run_length cls rest) else 0
  | EmptyString => 0
  end.

(** Modelled from the spec: an anchored attempt of a pattern of the
    fragment; the repetitions are greedy. *)
Definition match_at (p : pattern) (subject : string) (pos : nat)
    : option Scan.attempt :=
  let rest := slice_from subject pos in
  match p with
  | Literal word =>
      if prefix word rest then Some (String.length word, [], []) else None
  | ClassStar cls => Some (run_length cls rest, [], [])
  | ClassPlus cls =>
      match run_length cls rest with
      | 0 => None
      | n => Some (n, [], [])
      end
  | NamedPlus name cls =>
      match run_length cls rest with
      | 0 => None
      | n =>
          let text := slice subject pos (pos + n) in
          Some (n, [Some text], [(name, Some text)])
      end
  end.

Fixpoint all_chars (cls : ascii -> bool) (s : string) : bool :=
  match s with
  | String c rest => cls c && all_chars cls rest
  | EmptyString => true
  end.

Definition unterminated : string :=
  "missing ), unterminated subpattern at position 0".

(** Modelled from the spec: compilation of the scenarios' pattern texts;
    [(] is rejected with the library's message. *)
Definition compile (p : string) : compile_result pattern :=
  if String.eqb p "x*" then Compiled (ClassStar (Ascii.eqb "x"))
  else if String.eqb p "[a-z]+" then Compiled (ClassPlus is_lower)
  else if String.eqb p "(?P<word>\w+)" then Compiled (NamedPlus "word" is_word)
  else if String.eqb p "(" then ReError unterminated
  else if all_chars is_word p then Compiled (Literal p)
  else OtherError "pattern outside the sample fragment".

Definition engine : RegexEngine := scanning_engine pattern compile match_at.

(** The same patterns over a scan that fails at once. *)
Definition exhausted : string := "maximum recursion depth exceeded".

Definition failing_engine : RegexEngine :=
  {| Pattern := pattern;
     re_compile := compile;
     finditer := fun _ _ => Raised [] exhausted |}.

Definition typed (pattern subject : string) : App :=
  {| regex_pattern := pattern;
     test_string := subject;
     regex_status := "Regex Status: (Enter a pattern)";
     match_results := "" |}.

End Sample.

(* ================================================================== *)
(** * Notions of the specification *)
(* ================================================================== *)

(** Removing emphasis markup: every [**] delimiter is deleted, scanning
    left to right. *)
Fixpoint strip_emphasis (s : string) : string :=
  match s with
  | EmptyString => EmptyString
  | String c1 rest =>
      match rest with
      | EmptyString => s
      | String c2 rest' =>
          if Ascii.eqb c1 star && Ascii.eqb c2 star
          then strip_emphasis rest'
          else String c1 (strip_emphasis rest)
      end
  end.

(** Removing escape markers: a backslash in front of a markup-significant
    character is deleted and the character kept. *)
Fixpoint strip_escapes (s : string) : string :=
  match s with
  | EmptyString => EmptyString
  | String c1 rest =>
      match rest with
      | EmptyString => s
      | String c2 rest' =>
          if Ascii.eqb c1 backslash && md_special c2
          then String c2 (strip_escapes rest')
          else String c1 (strip_escapes rest)
      end
  end.

(** Stripping all markup from a highlighted text: the emphasis delimiters
    first, then the escape markers. *)
Definition strip_markup (highlighted : string) : string :=
  strip_escapes (strip_emphasis highlighted).

Definition start_of (m : MatchObj) : nat := fst (span m).
Definition end_of (m : MatchObj) : nat := snd (span m).

(** Each span is a range, and each match begins where the previous one
    ended or later ([from] is the end of the previous match). *)
Fixpoint spans_chain (from : nat) (ms : list MatchObj) : Prop :=
  match ms with
  | [] => True
  | m :: rest =>
      from <= start_of m /\ start_of m <= end_of m /\ spans_chain (end_of m) rest
  end.

(** The matched text of a record is the subject's text in its span. *)
Definition text_in_span (subject : string) (m : MatchObj) : Prop :=
  group0 m = slice subject (start_of m) (end_of m).

(** A match set produced for [subject]. *)
Definition produced_for (subject : string) (ms : list MatchObj) : Prop :=
  spans_chain 0 ms /\ Forall (text_in_span subject) ms.

Definition starts_ascend (m1 m2 : MatchObj) : Prop := start_of m1 <= start_of m2.
Definition ends_before (m1 m2 : MatchObj) : Prop := end_of m1 <= start_of m2.

(** Pairwise, over all pairs in list order. *)
Definition pairwise (R : MatchObj -> MatchObj -> Prop) (ms : list MatchObj) : Prop :=
  ForallOrdPairs R ms.

(** [t] occurs in [s]. *)
Definition contains (s t : string) : Prop :=
  exists before after, s = before ++ t ++ after.

(** The successive values of [last_char_index], one per iteration. *)
Fixpoint index_trace (current_test_str : string) (vars : LoopVars)
    (ms : list MatchObj) : list nat :=
  match ms with
  | [] => []
  | m :: rest =>
      let vars' := loop_body current_test_str vars m in
      last_char_index vars' :: index_trace current_test_str vars' rest
  end.

(** Number of markup-significant characters of a string. *)
Fixpoint count_special (s : string) : nat :=
  match s with
  | EmptyString => 0
  | String c rest => (if md_special c then 1 else 0) + count_special rest
  end.

(** The parts the loop appends when it starts with [last_char_index = last],
    and the value of [last_char_index] when it ends. *)
Fixpoint parts_from (current_test_str : string) (last : nat) (ms : list MatchObj)
    : list string :=
  match ms with
  | [] => []
  | m :: rest =>
      escape_md (slice current_test_str last (start_of m))
        :: ("**" ++ escape_md (group0 m) ++ "**")
        :: parts_from current_test_str (end_of m) rest
  end.

Fixpoint last_after (last : nat) (ms : list MatchObj) : nat :=
  match ms with
  | [] => last
  | m :: rest => last_after (end_of m) rest
  end.

(** A text in front of which a lone star stays a lone star when the
    emphasis delimiters are removed. *)
Definition star_safe (t : string) : Prop :=
  strip_emphasis (String star t) = String star (strip_emphasis t).

(* ================================================================== *)
(** * Event handlers and watchers (lines 66-68, 79, 91, 98-119) *)
(* ================================================================== *)

(** The state [compose] builds: both reactive fields at their default [""],
    the status label with its initial text (line 79) and an empty Markdown
    widget (line 91). *)
Definition mounted : App :=
  {| regex_pattern := "";
     test_string := "";
     regex_status := "Regex Status: (Enter a pattern)";
     match_results := "" |}.

(** Storing a value in a reactive field. *)
Definition set_regex_pattern (value : string) (self : App) : App :=
  {| regex_pattern := value;
     test_string := test_string self;
     regex_status := regex_status self;
     match_results := match_results self |}.

Definition set_test_string (value : string) (self : App) : App :=
  {| regex_pattern := regex_pattern self;
     test_string := value;
     regex_status := regex_status self;
     match_results := match_results self |}.

(** The two change notifications the handlers are registered for:
    [Input.Changed] with [event.value] and [TextArea.Changed] with
    [event.text_area.text]. *)
Inductive ui_event : Type :=
| InputChanged (value : string)
| TextAreaChanged (text : string).

Section Reactive.

Variable E : RegexEngine.

(** [watch_regex_pattern] (lines 111-114). *)
Definition watch_regex_pattern (old_pattern new_pattern : string) (self : App) : Run :=
  if negb (String.eqb old_pattern new_pattern)
  then _update_matches E self
  else mkRun self [].

(** [watch_test_string] (lines 116-119). *)
Definition watch_test_string (old_string new_string : string) (self : App) : Run :=
  if negb (String.eqb old_string new_string)
  then _update_matches E self
  else mkRun self [].

(** [handle_regex_input_change] (lines 99-102): the assignment to the
    reactive field stores the value and runs the watcher with the old and
    the new value; the watcher finishes before the next event is handled. *)
Definition handle_regex_input_change (value : string) (self : App) : Run :=
  let old_pattern := regex_pattern self in
  watch_regex_pattern old_pattern value (set_regex_pattern value self).

(** [handle_test_string_area_change] (lines 104-108). *)
Definition handle_test_string_area_change (text : string) (self : App) : Run :=
  let old_string := test_string self in
  watch_test_string old_string text (set_test_string text self).

(** Delivery of one notification to its handler. *)
Definition dispatch (ev : ui_event) (self : App) : Run :=
  match ev with
  | InputChanged value => handle_regex_input_change value self
  | TextAreaChanged text => handle_test_string_area_change text self
  end.

(** Delivery of a sequence of notifications, one after the other; the
    engine calls of the handlers are concatenated. *)
Fixpoint run_events (evs : list ui_event) (self : App) : Run :=
  match evs with
  | [] => mkRun self []
  | ev :: rest =>
      let r := dispatch ev self in
      let r' := run_events rest (after r) in
      mkRun (after r') (calls r ++ calls r')
  end.

End Reactive.

(** The display shows what a recomputation from the two fields gives. *)
Definition display_current (E : RegexEngine) (self : App) : Prop :=
  after (_update_matches E self) = self.

(** The value a field holds after a sequence of notifications: the last
    one delivered for it, or the value it had. *)
Fixpoint last_pattern (evs : list ui_event) (current : string) : string :=
  match evs with
  | [] => current
  | InputChanged value :: rest => last_pattern rest value
  | TextAreaChanged _ :: rest => last_pattern rest current
  end.

Fixpoint last_subject (evs : list ui_event) (current : string) : string :=
  match evs with
  | [] => current
  | InputChanged _ :: rest => last_subject rest current
  | TextAreaChanged text :: rest => last_subject rest text
  end.

(* ================================================================== *)
(** * Strings: basic facts *)
(* ================================================================== *)

Lemma str_app_nil_r (s : string) : s ++ "" = s.
Proof. induction s as [|c s IH]; simpl; [reflexivity | now rewrite IH]. Qed.

Lemma str_app_assoc (a b c : string) : (a ++ b) ++ c = a ++ (b ++ c).
Proof. induction a as [|x a IH]; simpl; [reflexivity | now rewrite IH]. Qed.

Lemma substring_empty (n m : nat) : substring n m "" = "".
Proof. destruct n, m; reflexivity. Qed.

Lemma slice_from_0 (s : string) : slice_from s 0 = s.
Proof.
  unfold slice_from. rewrite Nat.sub_0_r.
  induction s as [|c s IH]; simpl; [reflexivity | now rewrite IH].
Qed.

(** [s[lo:] = s[lo:mid] + s[mid:]] whenever [lo <= mid]. *)
Lemma slice_from_split (s : string) :
  forall lo mid, lo <= mid ->
    slice_from s lo = slice s lo mid ++ slice_from s mid.
Proof.
  unfold slice_from, slice.
  induction s as [|c s IH]; intros lo mid Hle.
  - now rewrite !substring_empty.
  - destruct lo as [|lo], mid as [|mid]; try lia.
    + reflexivity.
    + cbn [String.length Nat.sub substring append].
      specialize (IH 0 mid (Nat.le_0_l _)).
      rewrite !Nat.sub_0_r in IH. simpl. now rewrite IH.
    + cbn [String.length Nat.sub substring]. apply IH. lia.
Qed.

Lemma join_empty_cons (x : string) (l : list string) :
  join "" (x :: l) = x ++ join "" l.
Proof.
  unfold join. destruct l as [|y l]; simpl.
  - now rewrite str_app_nil_r.
  - reflexivity.
Qed.

Lemma contains_refl (s : string) : contains s s.
Proof. exists "", "". simpl. now rewrite str_app_nil_r. Qed.

Lemma contains_app_l (s t u : string) : contains s u -> contains (s ++ t) u.
Proof.
  intros (b & a & ->). exists b, (a ++ t). now rewrite !str_app_assoc.
Qed.

Lemma contains_app_r (s t u : string) : contains t u -> contains (s ++ t) u.
Proof.
  intros (b & a & ->). exists (s ++ b), a. now rewrite !str_app_assoc.
Qed.

Lemma contains_trans (s t u : string) : contains s t -> contains t u -> contains s u.
Proof.
  intros (b & a & ->) (b' & a' & ->).
  exists (b ++ b'), (a' ++ a). now rewrite !str_app_assoc.
Qed.

Create HintDb occurs discriminated.
#[local] Hint Resolve contains_refl contains_app_l contains_app_r : occurs.

(** An element of a joined list occurs in the joined text. *)
Lemma contains_join (sep x : string) (l : list string) :
  In x l -> contains (join sep l) x.
Proof.
  unfold join. induction l as [|y l IH]; intros Hin; [destruct Hin|].
  destruct Hin as [->|Hin].
  - destruct l; simpl; auto with occurs.
  - destruct l as [|z l]; [destruct Hin|].
    change (contains (y ++ sep ++ String.concat sep (z :: l)) x).
    auto with occurs.
Qed.

(* ================================================================== *)
(** * The escape step: facts *)
(* ================================================================== *)

Lemma md_special_spec (c : ascii) : md_special c = true <-> In c md_special_chars.
Proof.
  unfold md_special. rewrite existsb_exists. split.
  - intros (x & Hin & Heq). apply Ascii.eqb_eq in Heq. now subst.
  - intros Hin. exists c. split; [assumption | apply Ascii.eqb_refl].
Qed.

Lemma backslash_not_special : md_special backslash = false.
Proof. reflexivity. Qed.

Lemma not_special_not_star (c : ascii) :
  md_special c = false -> Ascii.eqb c star = false.
Proof.
  intros H. destruct (Ascii.eqb_spec c star) as [->|]; [|reflexivity].
  discriminate H.
Qed.

Lemma escape_md_app (a b : string) :
  escape_md (a ++ b) = escape_md a ++ escape_md b.
Proof.
  induction a as [|c a IH]; simpl; [reflexivity|].
  destruct (md_special c); simpl; now rewrite IH.
Qed.

(** An escaped text never begins with a markup-significant character. *)
Lemma escape_md_head (s : string) (c : ascii) (rest : string) :
  escape_md s = String c rest -> md_special c = false.
Proof.
  destruct s as [|x s]; simpl; [discriminate|].
  destruct (md_special x) eqn:Hx; intros [= <- _].
  - apply backslash_not_special.
  - assumption.
Qed.

Lemma strip_escapes_plain (c : ascii) (t : string) :
  (forall c2 rest, t = String c2 rest -> md_special c2 = false) ->
  strip_escapes (String c t) = String c (strip_escapes t).
Proof.
  intros Hhead. destruct t as [|c2 rest]; [reflexivity|].
  cbn [strip_escapes]. rewrite (Hhead c2 rest eq_refl), andb_false_r.
  reflexivity.
Qed.

(** Removing the escape markers of an escaped text gives the text back. *)
Lemma strip_escapes_escape_md (s : string) : strip_escapes (escape_md s) = s.
Proof.
  induction s as [|c s IH]; [reflexivity|].
  cbn [escape_md]. destruct (md_special c) eqn:Hc.
  - cbn [strip_escapes]. unfold backslash at 1. rewrite Ascii.eqb_refl, Hc.
    cbn [andb]. now rewrite IH.
  - rewrite strip_escapes_plain.
    + now rewrite IH.
    + intros c2 rest Heq. now apply escape_md_head in Heq.
Qed.

Lemma length_escape_md (s : string) :
  String.length (escape_md s) = String.length s + count_special s.
Proof.
  induction s as [|c s IH]; [reflexivity|].
  cbn [escape_md count_special]. destruct (md_special c); simpl; rewrite IH; lia.
Qed.

Lemma count_special_escape_md (s : string) :
  count_special (escape_md s) = count_special s.
Proof.
  induction s as [|c s IH]; [reflexivity|].
  cbn [escape_md]. destruct (md_special c) eqn:Hc; cbn [count_special].
  - rewrite backslash_not_special, Hc, IH. reflexivity.
  - rewrite Hc, IH. reflexivity.
Qed.

(** In an escaped text every markup-significant character has a backslash
    right in front of it. *)
Lemma escape_md_marked (s : string) :
  forall i c, get i (escape_md s) = Some c -> md_special c = true ->
    exists j, i = S j /\ get j (escape_md s) = Some backslash.
Proof.
  induction s as [|x s IH]; intros i c Hget Hc; [destruct i; discriminate|].
  cbn [escape_md] in *. destruct (md_special x) eqn:Hx.
  - destruct i as [|[|i]]; cbn [get] in Hget.
    + injection Hget as <-. now rewrite backslash_not_special in Hc.
    + exists 0. split; reflexivity.
    + destruct (IH i c Hget Hc) as (j & -> & Hj).
      exists (S (S j)). split; [reflexivity | exact Hj].
  - destruct i as [|i]; cbn [get] in Hget.
    + injection Hget as <-. congruence.
    + destruct (IH i c Hget Hc) as (j & -> & Hj).
      exists (S j). split; [reflexivity | exact Hj].
Qed.

(* ================================================================== *)
(** * Emphasis delimiters around escaped text *)
(* ================================================================== *)

Lemma strip_emphasis_other (c : ascii) (t : string) :
  Ascii.eqb c star = false ->
  strip_emphasis (String c t) = String c (strip_emphasis t).
Proof.
  intros Hc. destruct t as [|c2 rest]; [reflexivity|].
  cbn [strip_emphasis]. now rewrite Hc.
Qed.

Lemma strip_emphasis_delim (t : string) : strip_emphasis ("**" ++ t) = strip_emphasis t.
Proof. reflexivity. Qed.

Lemma star_safe_empty : star_safe "".
Proof. reflexivity. Qed.

Lemma star_safe_other (c : ascii) (t : string) :
  Ascii.eqb c star = false -> star_safe (String c t).
Proof.
  intros Hc. unfold star_safe.
  change (strip_emphasis (String star (String c t)))
    with (if Ascii.eqb star star && Ascii.eqb c star
          then strip_emphasis t
          else String star (strip_emphasis (String c t))).
  rewrite Hc, andb_false_r. reflexivity.
Qed.

Lemma star_safe_delim (t : string) : star_safe t -> star_safe ("**" ++ t).
Proof.
  unfold star_safe. intros Ht.
  change (strip_emphasis (String star ("**" ++ t)))
    with (strip_emphasis (String star t)).
  now rewrite Ht, strip_emphasis_delim.
Qed.

Lemma star_safe_escaped (a t : string) : star_safe t -> star_safe (escape_md a ++ t).
Proof.
  intros Ht. destruct a as [|c a]; [exact Ht|].
  cbn [escape_md]. destruct (md_special c) eqn:Hc; cbn [append].
  - now apply star_safe_other.
  - apply star_safe_other. now apply not_special_not_star.
Qed.

(** Removing the delimiters leaves escaped text alone, provided what
    follows it is [star_safe]. *)
Lemma strip_emphasis_escaped (a t : string) :
  star_safe t -> strip_emphasis (escape_md a ++ t) = escape_md a ++ strip_emphasis t.
Proof.
  intros Ht. induction a as [|c a IH]; [reflexivity|].
  cbn [escape_md]. destruct (md_special c) eqn:Hc; cbn [append].
  - rewrite strip_emphasis_other by reflexivity. f_equal.
    destruct (Ascii.eqb_spec c star) as [->|Hne].
    + fold star. rewrite (star_safe_escaped a t Ht). now rewrite IH.
    + rewrite strip_emphasis_other, IH; [reflexivity|].
      now apply Ascii.eqb_neq.
  - rewrite strip_emphasis_other, IH; [reflexivity|].
    now apply not_special_not_star.
Qed.

(* ================================================================== *)
(** * The render loop: what it computes *)
(* ================================================================== *)

Lemma loop_body_fields (s : string) (vars : LoopVars) (m : MatchObj) :
  loop_body s vars m =
  {| matches_details_md := matches_details_md vars ++ [match_info m];
     highlighted_text_parts_for_md :=
       highlighted_text_parts_for_md vars ++
       [escape_md (slice s (last_char_index vars) (start_of m));
        "**" ++ escape_md (group0 m) ++ "**"];
     last_char_index := end_of m |}.
Proof. unfold loop_body, start_of, end_of. now destruct (span m). Qed.

Lemma fold_loop (s : string) (ms : list MatchObj) :
  forall vars,
    fold_left (loop_body s) ms vars =
    {| matches_details_md := matches_details_md vars ++ map match_info ms;
       highlighted_text_parts_for_md :=
         highlighted_text_parts_for_md vars ++ parts_from s (last_char_index vars) ms;
       last_char_index := last_after (last_char_index vars) ms |}.
Proof.
  induction ms as [|m ms IH]; intros vars.
  - destruct vars. cbn. now rewrite !app_nil_r.
  - cbn [fold_left]. rewrite IH, loop_body_fields. cbn.
    now rewrite <- !app_assoc.
Qed.

Lemma details_of_map (s : string) (ms : list MatchObj) :
  details_of s ms = map match_info ms.
Proof. unfold details_of, run_loop. now rewrite fold_loop. Qed.

Lemma all_parts_unfold (s : string) (ms : list MatchObj) :
  all_parts s ms =
  (parts_from s 0 ms ++ [escape_md (slice_from s (last_after 0 ms))])%list.
Proof. unfold all_parts, run_loop. now rewrite fold_loop. Qed.

Lemma index_trace_ends (s : string) (ms : list MatchObj) :
  forall vars, index_trace s vars ms = map end_of ms.
Proof.
  induction ms as [|m ms IH]; intros vars; [reflexivity|].
  cbn [index_trace map]. rewrite IH, loop_body_fields. reflexivity.
Qed.

(** With the delimiters removed, what the loop has written from
    [last_char_index = last] on is the escaped rest of the subject. *)
Lemma highlighted_tail (s : string) (ms : list MatchObj) :
  forall last,
    spans_chain last ms -> Forall (text_in_span s) ms ->
    let h := join "" (parts_from s last ms ++
                      [escape_md (slice_from s (last_after last ms))]) in
    star_safe h /\ strip_emphasis h = escape_md (slice_from s last).
Proof.
  induction ms as [|m ms IH]; intros last Hchain Htext h; subst h.
  - cbn [parts_from last_after app]. rewrite join_empty_cons.
    change (join "" []) with "". split.
    + apply star_safe_escaped, star_safe_empty.
    + rewrite strip_emphasis_escaped by apply star_safe_empty.
      apply str_app_nil_r.
  - destruct Hchain as (Hlo & Hrange & Hchain).
    inversion Htext as [|? ? Hm Hrest]; subst.
    destruct (IH (end_of m) Hchain Hrest) as (Hsafe & Hstrip).
    cbn [parts_from last_after]. rewrite <- !app_comm_cons, !join_empty_cons.
    set (h' := join "" _) in *.
    replace (("**" ++ escape_md (group0 m) ++ "**") ++ h')
      with ("**" ++ escape_md (group0 m) ++ "**" ++ h')
      by (cbn [append]; now rewrite str_app_assoc).
    assert (Hinner : star_safe ("**" ++ h')) by now apply star_safe_delim.
    assert (Hmid : star_safe ("**" ++ escape_md (group0 m) ++ "**" ++ h'))
      by now apply star_safe_delim, star_safe_escaped.
    split; [now apply star_safe_escaped|].
    rewrite (strip_emphasis_escaped _ _ Hmid), strip_emphasis_delim.
    rewrite (strip_emphasis_escaped _ _ Hinner), strip_emphasis_delim, Hstrip.
    rewrite <- !escape_md_app. f_equal.
    rewrite Hm. rewrite (slice_from_split s last (start_of m) Hlo).
    now rewrite (slice_from_split s (start_of m) (end_of m) Hrange).
Qed.

(* ================================================================== *)
(** * Detail entries: their shape *)
(* ================================================================== *)

Lemma match_info_head (m : MatchObj) :
  exists tail,
    match_info m =
    match_head (escape_md (group0 m)) (start_of m) (end_of m) ++ tail.
Proof.
  unfold match_info, start_of, end_of. destruct (span m) as [start end_].
  cbn [fst snd].
  destruct (groups m) as [|g gs], (groupdict m) as [|kv gd].
  - exists "". now rewrite str_app_nil_r.
  - eexists. reflexivity.
  - eexists. reflexivity.
  - eexists. apply str_app_assoc.
Qed.

Lemma match_info_groups (m : MatchObj) :
  groups m <> [] ->
  exists head tail, match_info m = head ++ groups_line (groups m) ++ tail.
Proof.
  intros Hne. unfold match_info. destruct (span m) as [start end_].
  destruct (groups m) as [|g gs]; [contradiction|].
  destruct (groupdict m) as [|kv gd].
  - eexists. exists "". now rewrite str_app_nil_r.
  - eexists. eexists. apply str_app_assoc.
Qed.

Lemma match_info_named (m : MatchObj) :
  groupdict m <> [] ->
  exists head, match_info m = head ++ named_groups_line (groupdict m).
Proof.
  intros Hne. unfold match_info. destruct (span m) as [start end_].
  destruct (groupdict m) as [|kv gd]; [contradiction|].
  eexists. reflexivity.
Qed.

Ltac occurs_at before after :=
  exists before, after;
  repeat (rewrite ?str_app_assoc; cbn [append]); reflexivity.

Lemma match_head_text (e : string) (start end_ : nat) :
  contains (match_head e start end_) ("`" ++ e ++ "`").
Proof.
  unfold match_head.
  occurs_at "- **Match**: "
    (" (span=(" ++ str_of_int start ++ ", " ++ str_of_int end_ ++ "))").
Qed.

Lemma match_head_span (e : string) (start end_ : nat) :
  contains (match_head e start end_)
    ("(span=(" ++ str_of_int start ++ ", " ++ str_of_int end_ ++ "))").
Proof.
  unfold match_head. occurs_at ("- **Match**: `" ++ e ++ "` ") "".
Qed.

Lemma groups_line_list (gs : list (option string)) :
  contains (groups_line gs) ("(" ++ join ", " (group_str_parts gs) ++ ")").
Proof.
  unfold groups_line.
  occurs_at (nl ++ "  - Groups (" ++ str_of_int (List.length gs) ++ "): ") "".
Qed.

Lemma named_groups_line_map (gd : list (string * option string)) :
  contains (named_groups_line gd) ("{" ++ join ", " (named_group_parts gd) ++ "}").
Proof.
  unfold named_groups_line. occurs_at (nl ++ "  - Named Groups: ") "".
Qed.

(* ================================================================== *)
(** * The scan: order, spans and fuel *)
(* ================================================================== *)

Section ScanFacts.

Variable match_at : string -> nat -> option Scan.attempt.
Variable subject : string.

Lemma search_from (n : nat) :
  forall pos start a,
    Scan.search match_at subject n pos = Some (start, a) ->
    pos <= start < pos + n.
Proof.
  induction n as [|n IH]; intros pos start a H; [discriminate|].
  cbn [Scan.search] in H. destruct (match_at subject pos).
  - injection H as <- _. lia.
  - apply IH in H. lia.
Qed.

Lemma leftmost_from (pos start : nat) (a : Scan.attempt) :
  Scan.leftmost match_at subject pos = Some (start, a) ->
  pos <= start <= String.length subject.
Proof. unfold Scan.leftmost. intros H. apply search_from in H. lia. Qed.

Lemma leftmost_past_end (pos : nat) :
  String.length subject < pos -> Scan.leftmost match_at subject pos = None.
Proof.
  intros H. unfold Scan.leftmost.
  replace (S (String.length subject) - pos) with 0 by lia. reflexivity.
Qed.

Lemma next_pos_advances (start len : nat) :
  start < Scan.next_pos len (start + len) /\
  start + len <= Scan.next_pos len (start + len).
Proof.
  unfold Scan.next_pos. destruct (Nat.eqb_spec len 0); lia.
Qed.

Lemma spans_chain_weaken (ms : list MatchObj) (a b : nat) :
  b <= a -> spans_chain a ms -> spans_chain b ms.
Proof.
  destruct ms as [|m ms]; [trivial|]. cbn [spans_chain].
  intros Hle (H1 & H2 & H3). repeat split; [lia | assumption | assumption].
Qed.

Lemma scan_chain (fuel : nat) :
  forall pos, spans_chain pos (Scan.scan match_at fuel subject pos).
Proof.
  induction fuel as [|fuel IH]; intros pos; [exact I|].
  cbn [Scan.scan].
  destruct (Scan.leftmost match_at subject pos) as [[start [[len gs] gd]]|] eqn:Hl;
    [|exact I].
  apply leftmost_from in Hl. cbn [spans_chain]. unfold start_of, end_of.
  cbn [span fst snd]. repeat split; [lia | lia |].
  apply spans_chain_weaken with (a := Scan.next_pos len (start + len)).
  - apply next_pos_advances.
  - apply IH.
Qed.

Lemma scan_text (fuel : nat) :
  forall pos, Forall (text_in_span subject) (Scan.scan match_at fuel subject pos).
Proof.
  induction fuel as [|fuel IH]; intros pos; [constructor|].
  cbn [Scan.scan].
  destruct (Scan.leftmost match_at subject pos) as [[start [[len gs] gd]]|];
    [|constructor].
  constructor; [reflexivity | apply IH].
Qed.

(** Starts strictly increase along the scan: no position is matched
    twice. *)
Lemma scan_starts_from (fuel : nat) :
  forall pos,
    Forall (fun m => pos <= start_of m) (Scan.scan match_at fuel subject pos).
Proof.
  induction fuel as [|fuel IH]; intros pos; [constructor|].
  cbn [Scan.scan].
  destruct (Scan.leftmost match_at subject pos) as [[start [[len gs] gd]]|] eqn:Hl;
    [|constructor].
  apply leftmost_from in Hl. constructor; [cbn; lia|].
  eapply Forall_impl; [|apply IH]. cbn beta. intros m Hm.
  pose proof (next_pos_advances start len). lia.
Qed.

Lemma scan_starts_strict (fuel : nat) :
  forall pos,
    ForallOrdPairs (fun m1 m2 => start_of m1 < start_of m2)
      (Scan.scan match_at fuel subject pos).
Proof.
  induction fuel as [|fuel IH]; intros pos; [constructor|].
  cbn [Scan.scan].
  destruct (Scan.leftmost match_at subject pos) as [[start [[len gs] gd]]|];
    [|constructor].
  constructor; [|apply IH].
  eapply Forall_impl; [|apply scan_starts_from]. cbn beta. intros m Hm.
  unfold start_of at 1. cbn [span fst].
  pose proof (next_pos_advances start len). lia.
Qed.

(** Enough fuel: once the fuel covers the positions left, more fuel
    changes nothing. *)
Lemma scan_fuel_stable (n : nat) :
  forall pos fuel,
    S (String.length subject) - pos <= n -> n <= fuel ->
    Scan.scan match_at fuel subject pos = Scan.scan match_at n subject pos.
Proof.
  induction n as [|n IH]; intros pos fuel Hn Hfuel.
  - assert (Hnone : Scan.leftmost match_at subject pos = None)
      by (apply leftmost_past_end; lia).
    destruct fuel; cbn [Scan.scan]; [reflexivity | now rewrite Hnone].
  - destruct fuel as [|fuel]; [lia|]. cbn [Scan.scan].
    destruct (Scan.leftmost match_at subject pos) as [[start [[len gs] gd]]|] eqn:Hl;
      [|reflexivity].
    apply leftmost_from in Hl. f_equal. apply IH; [|lia].
    pose proof (next_pos_advances start len). lia.
Qed.

Lemma collect_fuel_enough (extra : nat) :
  Scan.scan match_at (S (String.length subject) + extra) subject 0 =
  Scan.collect match_at subject.
Proof. unfold Scan.collect. apply scan_fuel_stable; lia. Qed.

Lemma collect_produced_for : produced_for subject (Scan.collect match_at subject).
Proof. split; [apply scan_chain | apply scan_text]. Qed.

End ScanFacts.

(** From the chain of spans to the pairwise statements. *)
Lemma chain_starts_from (ms : list MatchObj) :
  forall from, spans_chain from ms -> Forall (fun m => from <= start_of m) ms.
Proof.
  induction ms as [|m ms IH]; intros from H; [constructor|].
  destruct H as (H1 & H2 & H3). constructor; [assumption|].
  eapply Forall_impl; [|apply (IH _ H3)]. cbn beta. intros; lia.
Qed.

Lemma chain_ranges (ms : list MatchObj) :
  forall from, spans_chain from ms -> Forall (fun m => start_of m <= end_of m) ms.
Proof.
  induction ms as [|m ms IH]; intros from H; [constructor|].
  destruct H as (H1 & H2 & H3). constructor; [assumption | apply (IH _ H3)].
Qed.

Lemma chain_ends_before (ms : list MatchObj) :
  forall from, spans_chain from ms -> pairwise ends_before ms.
Proof.
  induction ms as [|m ms IH]; intros from H; [constructor|].
  destruct H as (H1 & H2 & H3). constructor; [|apply (IH _ H3)].
  apply (chain_starts_from _ _ H3).
Qed.

Lemma chain_starts_ascend (ms : list MatchObj) :
  forall from, spans_chain from ms -> pairwise starts_ascend ms.
Proof.
  induction ms as [|m ms IH]; intros from H; [constructor|].
  destruct H as (H1 & H2 & H3). constructor; [|apply (IH _ H3)].
  eapply Forall_impl; [|apply (chain_starts_from _ _ H3)].
  unfold starts_ascend. cbn beta. intros; lia.
Qed.

(* ================================================================== *)
(** * Properties of the specification *)
(* ================================================================== *)

(** C1 (round trip). For every subject and every match set produced for it
    (spans in scan order, each beginning where the previous one ended or
    later, each matched text being the subject's text in its span),
    stripping the emphasis delimiters and then the escape markers from
    [highlighted_output_for_markdown] gives back the subject, character for
    character. *)
Theorem highlighted_roundtrip (subject : string) (ms : list MatchObj) :
  produced_for subject ms ->
  strip_markup (highlighted_output_for_markdown subject ms) = subject.
Proof.
  intros [Hchain Htext]. unfold strip_markup, highlighted_output_for_markdown.
  rewrite all_parts_unfold.
  destruct (highlighted_tail subject ms 0 Hchain Htext) as [_ ->].
  now rewrite strip_escapes_escape_md, slice_from_0.
Qed.

Lemma highlighted_roundtrip_witness :
  let ms := [mkMatch (1, 5) "ello" [] []; mkMatch (7, 11) "orld" [] []] in
  produced_for "Hello World 123" ms /\
  strip_markup (highlighted_output_for_markdown "Hello World 123" ms) =
  "Hello World 123".
Proof.
  intros ms.
  assert (H : produced_for "Hello World 123" ms).
  { split.
    - cbn. unfold start_of, end_of. cbn. lia.
    - repeat constructor. }
  split; [exact H | exact (highlighted_roundtrip _ _ H)].
Defined.

(** The subject's own backslash directly in front of a match: the text the
    loop builds, in which the delimiters have to go before the escape
    markers are looked for. *)
Example backslash_before_match :
  highlighted_output_for_markdown "\b" [mkMatch (1, 2) "b" [] []] = "\**b**".
Proof. reflexivity. Qed.

(** The parts of the two lists, written out: a value that is present is
    escaped with [escape_md], an absent one is the literal [None]. *)
Lemma group_str_parts_explicit (gs : list (option string)) :
  group_str_parts gs =
  map (fun g => match g with
                | Some v => "`" ++ escape_md v ++ "`"
                | None => "`None`"
                end) gs.
Proof. apply map_ext. intros [v|]; reflexivity. Qed.

Lemma named_group_parts_explicit (gd : list (string * option string)) :
  named_group_parts gd =
  map (fun kv => match snd kv with
                 | Some v => fst kv ++ "=`" ++ escape_md v ++ "`"
                 | None => fst kv ++ "=`None`"
                 end) gd.
Proof. apply map_ext. intros [name [v|]]; reflexivity. Qed.

(** C2 (detail entries). The loop produces one detail entry per match, in
    match order. Each entry contains the matched text escaped by
    [escape_md] (in a code span) and the span. For every positional group
    it contains the group's value escaped by [escape_md], or the literal
    [None] when the group is absent; when there are positional groups it
    contains the list of these, in order. For every named group it contains
    the name followed by the value escaped by [escape_md], or by [None];
    when named groups exist it contains the mapping of these, in order. An
    absent group is written [`None`], a group that matched the empty text
    is written as an empty code span, and the two differ. *)
Theorem detail_entries_per_match (subject : string) (ms : list MatchObj) :
  details_of subject ms = map match_info ms /\
  List.length (details_of subject ms) = List.length ms /\
  Forall (fun m =>
    contains (match_info m) ("`" ++ escape_md (group0 m) ++ "`") /\
    contains (match_info m)
      ("(span=(" ++ str_of_int (start_of m) ++ ", " ++ str_of_int (end_of m) ++ "))") /\
    Forall (fun g =>
              match g with
              | Some v => contains (match_info m) ("`" ++ escape_md v ++ "`")
              | None => contains (match_info m) "`None`"
              end) (groups m) /\
    (groups m = [] \/
     contains (match_info m)
       ("(" ++ join ", "
                 (map (fun g => match g with
                                | Some v => "`" ++ escape_md v ++ "`"
                                | None => "`None`"
                                end) (groups m)) ++ ")")) /\
    Forall (fun kv =>
              match snd kv with
              | Some v =>
                  contains (match_info m) (fst kv ++ "=`" ++ escape_md v ++ "`")
              | None => contains (match_info m) (fst kv ++ "=`None`")
              end) (groupdict m) /\
    (groupdict m = [] \/
     contains (match_info m)
       ("{" ++ join ", "
                 (map (fun kv => match snd kv with
                                 | Some v => fst kv ++ "=`" ++ escape_md v ++ "`"
                                 | None => fst kv ++ "=`None`"
                                 end) (groupdict m)) ++ "}"))) ms /\
  (forall v, escaped_or_None (Some v) = escape_md v) /\
  escaped_or_None None = "None" /\
  group_str_parts [None] = ["`None`"] /\
  group_str_parts [Some ""] = ["``"] /\
  group_str_parts [None] <> group_str_parts [Some ""].
Proof.
  split; [apply details_of_map|].
  split; [now rewrite details_of_map, length_map|].
  split; [|repeat split; discriminate].
  apply Forall_forall. intros m _.
  destruct (match_info_head m) as (tail & Hhead).
  split; [rewrite Hhead; apply contains_app_l, match_head_text|].
  split; [rewrite Hhead; apply contains_app_l, match_head_span|].
  split; [|split; [|split]].
  - apply Forall_forall. intros g Hg.
    assert (Hpart : contains (match_info m) ("`" ++ escaped_or_None g ++ "`")).
    { destruct (match_info_groups m) as (head & tl & ->).
      { intros Hnil. now rewrite Hnil in Hg. }
      apply contains_app_r, contains_app_l.
      eapply contains_trans; [apply groups_line_list|].
      apply contains_app_r, contains_app_l, contains_join.
      unfold group_str_parts.
      now apply (in_map (fun g => "`" ++ escaped_or_None g ++ "`")). }
    destruct g as [v|]; exact Hpart.
  - destruct (groups m) as [|g gs] eqn:Hg; [now left | right].
    destruct (match_info_groups m) as (head & tl & ->); [now rewrite Hg|].
    rewrite Hg, <- group_str_parts_explicit.
    apply contains_app_r, contains_app_l, groups_line_list.
  - apply Forall_forall. intros kv Hkv.
    assert (Hpart : contains (match_info m)
                      (fst kv ++ "=`" ++ escaped_or_None (snd kv) ++ "`")).
    { destruct (match_info_named m) as (head & ->).
      { intros Hnil. now rewrite Hnil in Hkv. }
      apply contains_app_r.
      eapply contains_trans; [apply named_groups_line_map|].
      apply contains_app_r, contains_app_l, contains_join.
      unfold named_group_parts.
      now apply (in_map (fun kv => fst kv ++ "=`" ++ escaped_or_None (snd kv) ++ "`")). }
    destruct kv as [name [v|]]; exact Hpart.
  - destruct (groupdict m) as [|kv gd] eqn:Hgd; [now left | right].
    destruct (match_info_named m) as (head & ->); [now rewrite Hgd|].
    rewrite Hgd, <- named_group_parts_explicit.
    apply contains_app_r, named_groups_line_map.
Qed.

(** A value with markup-significant characters, as a positional and as a
    named group. *)
Example detail_entry_escaped_groups :
  match_info (mkMatch (0, 3) "a.b" [Some "a.b"] [("whole", Some "a.b")]) =
  "- **Match**: `a\.b` (span=(0, 3))" ++ nl ++
  "  - Groups (1): (`a\.b`)" ++ nl ++
  "  - Named Groups: {whole=`a\.b`}".
Proof. reflexivity. Qed.

(** The entry of the scenario [(?P<word>\w+)] on [hi]. *)
Example detail_entry_named :
  match_info (mkMatch (0, 2) "hi" [Some "hi"] [("word", Some "hi")]) =
  "- **Match**: `hi` (span=(0, 2))" ++ nl ++
  "  - Groups (1): (`hi`)" ++ nl ++
  "  - Named Groups: {word=`hi`}".
Proof. reflexivity. Qed.

(** An absent group next to one that matched the empty text. *)
Example detail_entry_absent :
  match_info (mkMatch (0, 1) "a" [None; Some ""] []) =
  "- **Match**: `a` (span=(0, 1))" ++ nl ++ "  - Groups (2): (`None`, ``)".
Proof. reflexivity. Qed.

(** The literal of an absent group is distinct from the empty text, not
    from every text: a group that matched the four characters [None] is
    written the same way. *)
Example absent_group_and_text_None :
  escaped_or_None None = escaped_or_None (Some "None").
Proof. reflexivity. Qed.

(** C3 (ordering). For every compiled pattern and every subject, the
    sequence of match records the scan hands to the loop is sorted by start
    ascending (strictly: no two records start at the same position) and
    pairwise non-overlapping: the end of a record is at most the start of
    every later record. Each record is a range whose text is the subject's
    text in it, and the loop consumes the records in that order. *)
Theorem collected_sorted_non_overlapping (P : Type)
    (compile : string -> compile_result P)
    (match_at : P -> string -> nat -> option Scan.attempt)
    (re : P) (subject : string) :
  exists ms,
    finditer (scanning_engine P compile match_at) re subject = Yielded ms /\
    pairwise starts_ascend ms /\
    pairwise (fun m1 m2 => start_of m1 < start_of m2) ms /\
    pairwise ends_before ms /\
    Forall (fun m => start_of m <= end_of m) ms /\
    Forall (text_in_span subject) ms /\
    index_trace subject loop_init ms = map end_of ms.
Proof.
  exists (Scan.collect (match_at re) subject).
  destruct (collect_produced_for (match_at re) subject) as [Hc Ht].
  split; [reflexivity|].
  split; [exact (chain_starts_ascend _ _ Hc)|].
  split; [apply scan_starts_strict|].
  split; [exact (chain_ends_before _ _ Hc)|].
  split; [exact (chain_ranges _ _ Hc)|].
  split; [exact Ht | apply index_trace_ends].
Qed.

(* ------------------------------------------------------------------ *)
(** ** The controller *)
(* ------------------------------------------------------------------ *)

Lemma is_empty_false (s : string) : s <> "" -> is_empty s = false.
Proof. destruct s; [contradiction | reflexivity]. Qed.

Lemma is_empty_true (s : string) : s = "" -> is_empty s = true.
Proof. now intros ->. Qed.

Lemma fenced_contains (title e : string) : contains (fenced title e) e.
Proof.
  unfold fenced.
  occurs_at ("### " ++ title ++ nl ++ nl ++ "```" ++ nl) (nl ++ "```").
Qed.

Lemma suffix_contains (prefix e : string) : contains (prefix ++ e) e.
Proof. apply contains_app_r, contains_refl. Qed.

(** Every path of [_update_matches] writes a status and a document, and
    neither is empty. *)
Lemma every_path_updates_both (E : RegexEngine) (self : App) :
  regex_status (after (_update_matches E self)) <> "" /\
  match_results (after (_update_matches E self)) <> "".
Proof.
  unfold _update_matches.
  destruct (is_empty (regex_pattern self)); [split; discriminate|].
  destruct (re_compile E (regex_pattern self)) as [re|e|e];
    [|split; discriminate..].
  destruct (is_empty (test_string self)) eqn:Hs; [split; discriminate|].
  destruct (finditer E re (test_string self)) as [ms|ms e];
    [|split; discriminate].
  destruct (details_of (test_string self) ms); cbn; split; try discriminate.
  unfold no_match_document. rewrite Hs. discriminate.
Qed.

(** C4 (invalid pattern). When compiling a non-empty pattern fails, with
    an [re.error] or with any other exception, the step returns with the
    status set to the invalid (or error) marker followed by the failure's
    message and the document set to an error document that contains the
    message; the only call made to the regex capability is the compilation,
    so no match collection is attempted. *)
Theorem compile_failure_reported (E : RegexEngine) (self : App) (e : string) :
  regex_pattern self <> "" ->
  re_compile E (regex_pattern self) = ReError e \/
  re_compile E (regex_pattern self) = OtherError e ->
  let r := _update_matches E self in
  (regex_status (after r) = "Regex Status: [b red]Invalid[/b] - " ++ e \/
   regex_status (after r) = "Regex Status: [b red]Error[/b] - Unexpected: " ++ e) /\
  contains (regex_status (after r)) e /\
  (match_results (after r) = fenced "Regex Error" e \/
   match_results (after r) = fenced "Unexpected Compilation Error" e) /\
  contains (match_results (after r)) e /\
  calls r = [CallCompile (regex_pattern self)] /\
  (forall subject, ~ In (CallFinditer subject) (calls r)).
Proof.
  intros Hp Hc r. subst r. unfold _update_matches.
  rewrite (is_empty_false _ Hp).
  destruct Hc as [-> | ->]; cbn [after calls regex_status match_results
                                  status_update results_update].
  - repeat split; auto using suffix_contains, fenced_contains.
    intros subject [H|[]]. discriminate H.
  - repeat split; auto using suffix_contains, fenced_contains.
    intros subject [H|[]]. discriminate H.
Qed.

Lemma compile_failure_reported_witness :
  let self := Sample.typed "(" "abc" in
  let e := Sample.unterminated in
  let r := _update_matches Sample.engine self in
  (regex_status (after r) = "Regex Status: [b red]Invalid[/b] - " ++ e \/
   regex_status (after r) = "Regex Status: [b red]Error[/b] - Unexpected: " ++ e) /\
  contains (regex_status (after r)) e /\
  (match_results (after r) = fenced "Regex Error" e \/
   match_results (after r) = fenced "Unexpected Compilation Error" e) /\
  contains (match_results (after r)) e /\
  calls r = [CallCompile (regex_pattern self)] /\
  (forall subject, ~ In (CallFinditer subject) (calls r)).
Proof.
  intros self e.
  apply (compile_failure_reported Sample.engine self e).
  - discriminate.
  - left. reflexivity.
Defined.

(** C5 (empty inputs). Whatever the subject, an empty pattern gives the
    neutral "enter a pattern" status and a placeholder document, and the
    regex capability is not called at all. For a non-empty pattern that
    compiles, an empty subject gives the "enter a test string" placeholder
    under the valid status, and the scan is not started: the compilation is
    the only call. *)
Theorem empty_inputs (E : RegexEngine) (self : App) :
  (regex_pattern self = "" ->
   let r := _update_matches E self in
   regex_status (after r) = "Regex Status: (Enter a pattern)" /\
   match_results (after r) = "Enter a regex pattern to see matches." /\
   calls r = []) /\
  (forall re : Pattern E,
   regex_pattern self <> "" ->
   re_compile E (regex_pattern self) = Compiled re ->
   test_string self = "" ->
   let r := _update_matches E self in
   regex_status (after r) = "Regex Status: [b green]Valid[/b]" /\
   match_results (after r) = "Enter a test string to find matches." /\
   calls r = [CallCompile (regex_pattern self)]).
Proof.
  split.
  - intros Hp r. subst r. unfold _update_matches.
    rewrite (is_empty_true _ Hp). repeat split.
  - intros re Hp Hc Hs r. subst r. unfold _update_matches.
    rewrite (is_empty_false _ Hp), Hc, (is_empty_true _ Hs). repeat split.
Qed.

Lemma empty_inputs_witness :
  (let r := _update_matches Sample.engine (Sample.typed "" "abc") in
   regex_status (after r) = "Regex Status: (Enter a pattern)" /\
   match_results (after r) = "Enter a regex pattern to see matches." /\
   calls r = []) /\
  (let r := _update_matches Sample.engine (Sample.typed "foo" "") in
   regex_status (after r) = "Regex Status: [b green]Valid[/b]" /\
   match_results (after r) = "Enter a test string to find matches." /\
   calls r = [CallCompile "foo"]).
Proof.
  split.
  - exact (proj1 (empty_inputs Sample.engine (Sample.typed "" "abc")) eq_refl).
  - refine (proj2 (empty_inputs Sample.engine (Sample.typed "foo" ""))
              (Sample.Literal "foo") _ eq_refl eq_refl).
    discriminate.
Defined.

(** C6 (scan failure). When the scan raises for a compiled pattern and a
    non-empty subject, the step returns with the status set to the
    matching-error marker followed by the failure's message and the
    document set to an error document that contains the message; neither
    is empty, so the failure is not dropped. *)
Theorem scan_failure_reported (E : RegexEngine) (self : App) (re : Pattern E)
    (ms : list MatchObj) (e : string) :
  regex_pattern self <> "" ->
  re_compile E (regex_pattern self) = Compiled re ->
  test_string self <> "" ->
  finditer E re (test_string self) = Raised ms e ->
  let r := _update_matches E self in
  regex_status (after r) =
    "Regex Status: [b red]Error during matching[/b] - " ++ e /\
  match_results (after r) = fenced "Matching Error" e /\
  contains (regex_status (after r)) e /\
  contains (match_results (after r)) e /\
  regex_status (after r) <> "" /\
  match_results (after r) <> "".
Proof.
  intros Hp Hc Hs Hf r.
  pose proof (every_path_updates_both E self) as [Hst Hdoc].
  subst r. revert Hst Hdoc. unfold _update_matches.
  rewrite (is_empty_false _ Hp), Hc, (is_empty_false _ Hs), Hf.
  cbn [after calls regex_status match_results status_update results_update].
  intros Hst Hdoc.
  repeat split; auto using suffix_contains, fenced_contains.
Qed.

Lemma scan_failure_reported_witness :
  let self := Sample.typed "foo" "bar" in
  let e := Sample.exhausted in
  let r := _update_matches Sample.failing_engine self in
  regex_status (after r) =
    "Regex Status: [b red]Error during matching[/b] - " ++ e /\
  match_results (after r) = fenced "Matching Error" e /\
  contains (regex_status (after r)) e /\
  contains (match_results (after r)) e /\
  regex_status (after r) <> "" /\
  match_results (after r) <> "".
Proof.
  intros self e.
  apply (scan_failure_reported Sample.failing_engine self
           (Sample.Literal "foo") [] e).
  - discriminate.
  - reflexivity.
  - discriminate.
  - reflexivity.
Defined.

(** C7 (no matches), as the specification states it, fails for the empty
    subject: with a valid pattern, an empty subject and therefore no match,
    the document is the "enter a test string" placeholder and not the
    generic "no matches" message. *)
Lemma empty_subject_gets_placeholder :
  let self := Sample.typed "foo" "" in
  let r := _update_matches Sample.engine self in
  re_compile Sample.engine (regex_pattern self) = Compiled (Sample.Literal "foo") /\
  finditer Sample.engine (Sample.Literal "foo") (test_string self) = Yielded [] /\
  match_results (after r) = "Enter a test string to find matches." /\
  match_results (after r) <> "No matches found.".
Proof. repeat split. discriminate. Qed.

(** C7 (no matches), amended. For every valid pattern and non-empty subject
    with zero matches the document is the "no matches found in" message
    followed by the fully escaped subject. For an empty subject the step has
    already ended with the "enter a test string" placeholder: the generic
    "no matches" message is not produced. *)
Theorem no_match_document_shown (E : RegexEngine) (self : App) (re : Pattern E) :
  regex_pattern self <> "" ->
  re_compile E (regex_pattern self) = Compiled re ->
  let r := _update_matches E self in
  (test_string self <> "" ->
   finditer E re (test_string self) = Yielded [] ->
   match_results (after r) =
     "No matches found in:" ++ nl ++ nl ++ escape_md (test_string self) /\
   contains (match_results (after r)) (escape_md (test_string self))) /\
  (test_string self = "" ->
   match_results (after r) = "Enter a test string to find matches." /\
   match_results (after r) <> "No matches found.").
Proof.
  intros Hp Hc r. subst r. unfold _update_matches.
  rewrite (is_empty_false _ Hp), Hc. split.
  - intros Hs Hf. rewrite (is_empty_false _ Hs), Hf.
    cbn [details_of run_loop fold_left loop_init matches_details_md after
         match_results results_update].
    unfold no_match_document. rewrite (is_empty_false _ Hs).
    split; [reflexivity|].
    apply (suffix_contains ("No matches found in:" ++ nl ++ nl)).
  - intros Hs. rewrite (is_empty_true _ Hs). split; [reflexivity | discriminate].
Qed.

Lemma no_match_document_shown_witness :
  (let self := Sample.typed "foo" "bar" in
   let r := _update_matches Sample.engine self in
   match_results (after r) =
     "No matches found in:" ++ nl ++ nl ++ escape_md (test_string self) /\
   contains (match_results (after r)) (escape_md (test_string self))) /\
  (let self := Sample.typed "foo" "" in
   let r := _update_matches Sample.engine self in
   match_results (after r) = "Enter a test string to find matches." /\
   match_results (after r) <> "No matches found.").
Proof.
  assert (Hp : forall subject,
             regex_pattern (Sample.typed "foo" subject) <> "") by discriminate.
  split.
  - refine (proj1 (no_match_document_shown Sample.engine (Sample.typed "foo" "bar")
                     (Sample.Literal "foo") (Hp _) eq_refl) _ eq_refl).
    discriminate.
  - exact (proj2 (no_match_document_shown Sample.engine (Sample.typed "foo" "")
                    (Sample.Literal "foo") (Hp _) eq_refl) eq_refl).
Defined.

(** The scenario [foo] on [bar], and a subject whose characters need
    escaping. *)
Example no_match_foo_bar :
  match_results (after (_update_matches Sample.engine (Sample.typed "foo" "bar"))) =
  "No matches found in:" ++ nl ++ nl ++ "bar".
Proof. reflexivity. Qed.

Example no_match_escaped_subject :
  match_results (after (_update_matches Sample.engine (Sample.typed "foo" "a.b"))) =
  "No matches found in:" ++ nl ++ nl ++ "a\.b".
Proof. reflexivity. Qed.

(** C8 (zero-width matches). For the pattern [x*] and the subject [abc] the
    collection ends: the scan yields four zero-width matches, at 0, 1, 2
    and 3, and no amount of further fuel adds a match; [last_char_index]
    takes the values 0, 1, 2, 3, so the position only moves forward; and the
    parts written contain each character of the subject once. *)
Theorem star_on_abc_terminates :
  let re := Sample.ClassStar (Ascii.eqb "x") in
  let ms := Scan.collect (Sample.match_at re) "abc" in
  re_compile Sample.engine "x*" = Compiled re /\
  finditer Sample.engine re "abc" = Yielded ms /\
  map span ms = [(0, 0); (1, 1); (2, 2); (3, 3)] /\
  (forall extra,
     Scan.scan (Sample.match_at re) (S (String.length "abc") + extra) "abc" 0 = ms) /\
  pairwise ends_before ms /\
  index_trace "abc" loop_init ms = [0; 1; 2; 3] /\
  all_parts "abc" ms = [""; "****"; "a"; "****"; "b"; "****"; "c"; "****"; ""] /\
  strip_markup (highlighted_output_for_markdown "abc" ms) = "abc".
Proof.
  intros re ms.
  split; [reflexivity|]. split; [reflexivity|]. split; [reflexivity|].
  split; [intros extra; apply collect_fuel_enough|].
  split; [apply (chain_ends_before _ 0), scan_chain|].
  split; [reflexivity|]. split; reflexivity.
Qed.

(** C9 (escape). [escape_md] is a function on all strings: the empty string
    is mapped to itself; the characters it treats are exactly the twelve of
    the fixed set; in its result every such character has a backslash right
    in front of it; one character is added per such character and deleting
    the added backslashes gives the input back, so nothing else changes; it
    is computed character by character, so escaping commutes with
    concatenation; and escaping an escaped text escapes its characters once
    more instead of recognising them. *)
Theorem escape_md_contract :
  escape_md "" = "" /\
  (forall c, md_special c = true <->
     In c ["*"; "_"; "`"; "["; "]"; "("; ")"; "!"; "#"; "-"; "+"; "."]%char) /\
  (forall s i c, get i (escape_md s) = Some c -> md_special c = true ->
     exists j, i = S j /\ get j (escape_md s) = Some backslash) /\
  (forall s, String.length (escape_md s) = String.length s + count_special s) /\
  (forall s, strip_escapes (escape_md s) = s) /\
  (forall a b, escape_md (a ++ b) = escape_md a ++ escape_md b) /\
  (forall s, String.length (escape_md (escape_md s)) =
             String.length s + 2 * count_special s) /\
  escape_md (escape_md "a*b") = "a\\*b".
Proof.
  split; [reflexivity|].
  split; [exact md_special_spec|].
  split; [exact escape_md_marked|].
  split; [exact length_escape_md|].
  split; [exact strip_escapes_escape_md|].
  split; [exact escape_md_app|].
  split; [|reflexivity].
  intros s. rewrite !length_escape_md, count_special_escape_md. lia.
Qed.

Lemma escape_md_contract_witness :
  exists j, 2 = S j /\ get j (escape_md "a*b") = Some backslash.
Proof.
  apply (proj1 (proj2 (proj2 escape_md_contract)) "a*b" 2 "*"%char);
    reflexivity.
Defined.

(** C10 (frame). On every path [_update_matches] leaves [regex_pattern] and
    [test_string] as they were: the state it returns is the one it was given
    with the status text and the results document replaced. *)
Theorem reactive_fields_unchanged (E : RegexEngine) (self : App) :
  let r := _update_matches E self in
  regex_pattern (after r) = regex_pattern self /\
  test_string (after r) = test_string self /\
  exists status document,
    after r = results_update document (status_update status self).
Proof.
  intros r. subst r. unfold _update_matches.
  destruct (is_empty (regex_pattern self)).
  { repeat split. eexists. eexists. reflexivity. }
  destruct (re_compile E (regex_pattern self)) as [re|e|e];
    [|repeat split; eexists; eexists; reflexivity..].
  destruct (is_empty (test_string self)).
  { repeat split. eexists. eexists. reflexivity. }
  destruct (finditer E re (test_string self)) as [ms|ms e];
    [|repeat split; eexists; eexists; reflexivity].
  destruct (details_of (test_string self) ms);
    repeat split; eexists; eexists; reflexivity.
Qed.

(* ================================================================== *)
(** * Further properties of the controller *)
(* ================================================================== *)

Lemma update_ignores_display (E : RegexEngine) (self : App) (status document : string) :
  _update_matches E (results_update document (status_update status self)) =
  _update_matches E self.
Proof.
  unfold _update_matches.
  cbn [regex_pattern test_string results_update status_update].
  destruct (is_empty (regex_pattern self)); [reflexivity|].
  destruct (re_compile E (regex_pattern self)) as [re|e|e]; [|reflexivity..].
  destruct (is_empty (test_string self)); [reflexivity|].
  destruct (finditer E re (test_string self)) as [ms|ms e]; [|reflexivity].
  destruct (details_of (test_string self) ms); reflexivity.
Qed.

Lemma update_replaces_display (E : RegexEngine) (self : App) :
  exists status document,
    after (_update_matches E self) =
    results_update document (status_update status self).
Proof.
  unfold _update_matches.
  destruct (is_empty (regex_pattern self)); [eexists; eexists; reflexivity|].
  destruct (re_compile E (regex_pattern self)) as [re|e|e];
    [|eexists; eexists; reflexivity..].
  destruct (is_empty (test_string self)); [eexists; eexists; reflexivity|].
  destruct (finditer E re (test_string self)) as [ms|ms e];
    [|eexists; eexists; reflexivity].
  destruct (details_of (test_string self) ms); eexists; eexists; reflexivity.
Qed.

Lemma same_fields_same_display (self1 self2 : App) :
  regex_pattern self1 = regex_pattern self2 ->
  test_string self1 = test_string self2 ->
  self1 =
  results_update (match_results self1) (status_update (regex_status self1) self2).
Proof. destruct self1, self2. cbn. now intros -> ->. Qed.

(** X1 (the display is a function of the two fields). Two states with the
    same pattern and the same subject give the same run: the same status,
    the same document and the same engine calls, whatever their widgets
    showed before. *)
Theorem display_determined_by_fields (E : RegexEngine) (self1 self2 : App) :
  regex_pattern self1 = regex_pattern self2 ->
  test_string self1 = test_string self2 ->
  _update_matches E self1 = _update_matches E self2.
Proof.
  intros Hp Hs.
  rewrite (same_fields_same_display self1 self2 Hp Hs) at 1.
  apply update_ignores_display.
Qed.

Lemma display_determined_by_fields_witness :
  _update_matches Sample.engine (Sample.typed "[a-z]+" "Hello World 123") =
  _update_matches Sample.engine
    (mkApp "[a-z]+" "Hello World 123" "Regex Status: [b red]Invalid[/b] - x" "old").
Proof.
  apply (display_determined_by_fields Sample.engine); reflexivity.
Defined.

(** X2 (idempotence). Running [_update_matches] again on the state it
    returned changes nothing: the same state and the same engine calls. *)
Theorem update_matches_idempotent (E : RegexEngine) (self : App) :
  _update_matches E (after (_update_matches E self)) = _update_matches E self.
Proof.
  destruct (update_replaces_display E self) as (status & document & ->).
  apply update_ignores_display.
Qed.

(** X3 (call discipline). One run calls the regex capability in one of
    three ways: not at all, exactly when the pattern is empty; [re.compile]
    only, when the pattern is not empty and compilation fails or the subject
    is empty; [re.compile] and then [finditer], when the pattern compiles
    and the subject is not empty. So an empty pattern is never compiled and
    an empty subject is never scanned. *)
Theorem engine_call_discipline (E : RegexEngine) (self : App) :
  let r := _update_matches E self in
  (regex_pattern self = "" /\ calls r = []) \/
  (regex_pattern self <> "" /\
   calls r = [CallCompile (regex_pattern self)] /\
   ((exists e, re_compile E (regex_pattern self) = ReError e) \/
    (exists e, re_compile E (regex_pattern self) = OtherError e) \/
    ((exists re, re_compile E (regex_pattern self) = Compiled re) /\
     test_string self = ""))) \/
  (regex_pattern self <> "" /\ test_string self <> "" /\
   (exists re, re_compile E (regex_pattern self) = Compiled re) /\
   calls r = [CallCompile (regex_pattern self); CallFinditer (test_string self)]).
Proof.
  intros r. subst r. unfold _update_matches.
  destruct (regex_pattern self) as [|c p] eqn:Hp; [left; now split|].
  cbn [is_empty]. right.
  destruct (re_compile E (String c p)) as [re|e|e] eqn:Hc.
  - destruct (test_string self) as [|d t] eqn:Hs; cbn [is_empty].
    + left. repeat split; [discriminate|]. right. right. split; [now exists re | reflexivity].
    + right. split; [discriminate|]. split; [discriminate|].
      split; [now exists re|].
      destruct (finditer E re (String d t)) as [ms|ms e]; [|reflexivity].
      destruct (details_of (String d t) ms); reflexivity.
  - left. repeat split; [discriminate|]. left. now exists e.
  - left. repeat split; [discriminate|]. right. left. now exists e.
Qed.

(** X4 (when the status is Valid). After a run the status is the valid
    marker exactly when the pattern is not empty, compiles, and the subject
    is empty or its scan does not raise. *)
Theorem status_valid_iff (E : RegexEngine) (self : App) :
  regex_status (after (_update_matches E self)) = "Regex Status: [b green]Valid[/b]"
  <->
  regex_pattern self <> "" /\
  exists re, re_compile E (regex_pattern self) = Compiled re /\
    (test_string self = "" \/
     exists ms, finditer E re (test_string self) = Yielded ms).
Proof.
  unfold _update_matches.
  destruct (regex_pattern self) as [|c p] eqn:Hp; cbn [is_empty].
  { split; [discriminate | intros [H _]; now contradiction H]. }
  destruct (re_compile E (String c p)) as [re|e|e] eqn:Hc.
  - destruct (test_string self) as [|d t] eqn:Hs; cbn [is_empty].
    + split; [|reflexivity]. intros _. split; [discriminate|].
      exists re. split; [reflexivity | now left].
    + destruct (finditer E re (String d t)) as [ms|ms e] eqn:Hf.
      * split.
        -- intros _. split; [discriminate|]. exists re.
           split; [reflexivity | right; now exists ms].
        -- intros _. destruct (details_of (String d t) ms); reflexivity.
      * split; [discriminate|].
        intros (_ & re' & [= <-] & [Hempty | (ms' & Hms)]); [discriminate|].
        rewrite Hf in Hms. discriminate.
  - split; [discriminate|]. intros (_ & re & Hre & _). discriminate.
  - split; [discriminate|]. intros (_ & re & Hre & _). discriminate.
Qed.

Lemma status_valid_iff_witness :
  regex_status (after (_update_matches Sample.engine (Sample.typed "foo" "bar"))) =
  "Regex Status: [b green]Valid[/b]".
Proof.
  apply (proj2 (status_valid_iff Sample.engine (Sample.typed "foo" "bar"))).
  split; [discriminate|].
  exists (Sample.Literal "foo"). split; [reflexivity|].
  right. exists []. reflexivity.
Defined.

Lemma is_empty_app_r (a b : string) : is_empty b = false -> is_empty (a ++ b) = false.
Proof. destruct a; [trivial | reflexivity]. Qed.

(** With at least one match the highlighted text is not empty: it holds
    the delimiters of the first match. *)
Lemma highlighted_not_empty (s : string) (ms : list MatchObj) :
  ms <> [] -> is_empty (highlighted_output_for_markdown s ms) = false.
Proof.
  destruct ms as [|m ms]; [contradiction|]. intros _.
  unfold highlighted_output_for_markdown. rewrite all_parts_unfold.
  cbn [parts_from]. rewrite <- !app_comm_cons.
  rewrite join_empty_cons, join_empty_cons.
  apply is_empty_app_r. reflexivity.
Qed.

Lemma results_content_unfold (highlighted : string) (details : list string) :
  is_empty highlighted = false ->
  results_content highlighted details =
  "### Highlighted Text:" ++ nl ++ nl ++ highlighted ++ nl ++ nl ++
  "### Match Details:" ++ nl ++ nl ++ join (nl ++ nl) details.
Proof.
  intros H. unfold results_content. rewrite H.
  repeat (rewrite ?str_app_assoc; cbn [append]). reflexivity.
Qed.

(** X5 (the document of the match path). For a compiled pattern, a
    non-empty subject and at least one match, the status is the valid marker
    and the document is the heading of the highlighted text, the highlighted
    text itself (never the fallback text of line 208), the heading of the
    details and the detail entries separated by blank lines; so the
    document contains the highlighted text and the entry of every match. *)
Theorem matches_document (E : RegexEngine) (self : App) (re : Pattern E)
    (ms : list MatchObj) :
  regex_pattern self <> "" ->
  re_compile E (regex_pattern self) = Compiled re ->
  test_string self <> "" ->
  finditer E re (test_string self) = Yielded ms ->
  ms <> [] ->
  let r := _update_matches E self in
  let highlighted := highlighted_output_for_markdown (test_string self) ms in
  regex_status (after r) = "Regex Status: [b green]Valid[/b]" /\
  match_results (after r) =
    "### Highlighted Text:" ++ nl ++ nl ++ highlighted ++ nl ++ nl ++
    "### Match Details:" ++ nl ++ nl ++ join (nl ++ nl) (map match_info ms) /\
  contains (match_results (after r)) highlighted /\
  Forall (fun m => contains (match_results (after r)) (match_info m)) ms.
Proof.
  intros Hp Hc Hs Hf Hms r highlighted. subst r highlighted.
  unfold _update_matches.
  rewrite (is_empty_false _ Hp), Hc, (is_empty_false _ Hs), Hf, details_of_map.
  destruct ms as [|m ms]; [contradiction|].
  cbn [map after regex_status match_results results_update status_update].
  rewrite results_content_unfold by now apply highlighted_not_empty.
  split; [reflexivity|]. split; [reflexivity|]. split.
  - apply contains_app_r, contains_app_r, contains_app_r, contains_app_l,
      contains_refl.
  - apply Forall_forall. intros m' Hin.
    do 9 apply contains_app_r.
    apply contains_join. now apply (in_map match_info) in Hin.
Qed.

Lemma matches_document_witness :
  let self := Sample.typed "[a-z]+" "Hello World 123" in
  let ms := [mkMatch (1, 5) "ello" [] []; mkMatch (7, 11) "orld" [] []] in
  let r := _update_matches Sample.engine self in
  let highlighted := highlighted_output_for_markdown (test_string self) ms in
  regex_status (after r) = "Regex Status: [b green]Valid[/b]" /\
  match_results (after r) =
    "### Highlighted Text:" ++ nl ++ nl ++ highlighted ++ nl ++ nl ++
    "### Match Details:" ++ nl ++ nl ++ join (nl ++ nl) (map match_info ms) /\
  contains (match_results (after r)) highlighted /\
  Forall (fun m => contains (match_results (after r)) (match_info m)) ms.
Proof.
  intros self ms.
  apply (matches_document Sample.engine self (Sample.ClassPlus Sample.is_lower) ms).
  - discriminate.
  - reflexivity.
  - discriminate.
  - reflexivity.
  - discriminate.
Defined.

(** X6 (the generic message is never shown). On no path does a run leave
    the document ["No matches found."]: the branch of line 217 is not
    reachable. *)
Theorem generic_no_match_never_shown (E : RegexEngine) (self : App) :
  match_results (after (_update_matches E self)) <> "No matches found.".
Proof.
  unfold _update_matches.
  destruct (is_empty (regex_pattern self)); [discriminate|].
  destruct (re_compile E (regex_pattern self)) as [re|e|e]; [|discriminate..].
  destruct (is_empty (test_string self)) eqn:Hs; [discriminate|].
  destruct (finditer E re (test_string self)) as [ms|ms e]; [|discriminate].
  destruct (details_of (test_string self) ms).
  - cbn. unfold no_match_document. rewrite Hs. discriminate.
  - discriminate.
Qed.

(* ------------------------------------------------------------------ *)
(** ** Handlers, watchers and sequences of notifications *)
(* ------------------------------------------------------------------ *)

Lemma set_regex_pattern_same (self : App) :
  set_regex_pattern (regex_pattern self) self = self.
Proof. now destruct self. Qed.

Lemma set_test_string_same (self : App) :
  set_test_string (test_string self) self = self.
Proof. now destruct self. Qed.

Lemma update_keeps_fields (E : RegexEngine) (self : App) :
  regex_pattern (after (_update_matches E self)) = regex_pattern self /\
  test_string (after (_update_matches E self)) = test_string self.
Proof.
  destruct (update_replaces_display E self) as (status & document & ->).
  split; reflexivity.
Qed.

Lemma updated_display_current (E : RegexEngine) (self : App) :
  display_current E (after (_update_matches E self)).
Proof.
  unfold display_current.
  destruct (update_replaces_display E self) as (status & document & Heq).
  rewrite Heq at 1. rewrite update_ignores_display. reflexivity.
Qed.

(** What a delivery does: nothing at all, or a recomputation on the state
    with the new value stored. *)
Lemma dispatch_cases (E : RegexEngine) (ev : ui_event) (self : App) :
  dispatch E ev self = mkRun self [] \/
  exists self', dispatch E ev self = _update_matches E self'.
Proof.
  destruct ev as [value|text]; cbn [dispatch];
    unfold handle_regex_input_change, watch_regex_pattern,
           handle_test_string_area_change, watch_test_string.
  - destruct (String.eqb_spec (regex_pattern self) value) as [<-|Hne]; cbn [negb].
    + left. now rewrite set_regex_pattern_same.
    + right. eexists. reflexivity.
  - destruct (String.eqb_spec (test_string self) text) as [<-|Hne]; cbn [negb].
    + left. now rewrite set_test_string_same.
    + right. eexists. reflexivity.
Qed.

Lemma dispatch_fields (E : RegexEngine) (ev : ui_event) (self : App) :
  regex_pattern (after (dispatch E ev self)) = last_pattern [ev] (regex_pattern self) /\
  test_string (after (dispatch E ev self)) = last_subject [ev] (test_string self).
Proof.
  destruct ev as [value|text]; cbn [dispatch last_pattern last_subject];
    unfold handle_regex_input_change, watch_regex_pattern,
           handle_test_string_area_change, watch_test_string.
  - destruct (negb _);
      [destruct (update_keeps_fields E (set_regex_pattern value self)) as [-> ->]|];
      split; reflexivity.
  - destruct (negb _);
      [destruct (update_keeps_fields E (set_test_string text self)) as [-> ->]|];
      split; reflexivity.
Qed.

(** X7 (handlers). A notification that carries the value the field already
    holds changes nothing and calls nothing; one that carries a different
    value stores it and recomputes the display from the new state. This
    holds for the pattern field and for the subject field. *)
Theorem handlers_recompute_on_change (E : RegexEngine) (self : App) (value : string) :
  (value = regex_pattern self ->
   handle_regex_input_change E value self = mkRun self []) /\
  (value <> regex_pattern self ->
   handle_regex_input_change E value self =
   _update_matches E (set_regex_pattern value self)) /\
  (value = test_string self ->
   handle_test_string_area_change E value self = mkRun self []) /\
  (value <> test_string self ->
   handle_test_string_area_change E value self =
   _update_matches E (set_test_string value self)).
Proof.
  unfold handle_regex_input_change, watch_regex_pattern,
         handle_test_string_area_change, watch_test_string.
  repeat split.
  - intros ->. now rewrite String.eqb_refl, set_regex_pattern_same.
  - intros Hne. apply not_eq_sym, String.eqb_neq in Hne. now rewrite Hne.
  - intros ->. now rewrite String.eqb_refl, set_test_string_same.
  - intros Hne. apply not_eq_sym, String.eqb_neq in Hne. now rewrite Hne.
Qed.

Lemma handlers_recompute_on_change_witness :
  handle_regex_input_change Sample.engine "foo" (Sample.typed "foo" "bar") =
    mkRun (Sample.typed "foo" "bar") [] /\
  handle_regex_input_change Sample.engine "fo" (Sample.typed "foo" "bar") =
    _update_matches Sample.engine (set_regex_pattern "fo" (Sample.typed "foo" "bar")) /\
  handle_test_string_area_change Sample.engine "bar" (Sample.typed "foo" "bar") =
    mkRun (Sample.typed "foo" "bar") [] /\
  handle_test_string_area_change Sample.engine "ba" (Sample.typed "foo" "bar") =
    _update_matches Sample.engine (set_test_string "ba" (Sample.typed "foo" "bar")).
Proof.
  pose proof (handlers_recompute_on_change Sample.engine (Sample.typed "foo" "bar"))
    as H.
  split; [exact (proj1 (H "foo") eq_refl)|].
  split; [apply (proj1 (proj2 (H "fo"))); discriminate|].
  split; [exact (proj1 (proj2 (proj2 (H "bar"))) eq_refl)|].
  apply (proj2 (proj2 (proj2 (H "ba")))). discriminate.
Defined.

Lemma dispatch_keeps_current (E : RegexEngine) (ev : ui_event) (self : App) :
  display_current E self -> display_current E (after (dispatch E ev self)).
Proof.
  intros Hcur. destruct (dispatch_cases E ev self) as [-> | (self' & ->)].
  - exact Hcur.
  - apply updated_display_current.
Qed.

Lemma run_events_keep_current (E : RegexEngine) (evs : list ui_event) :
  forall self,
    display_current E self -> display_current E (after (run_events E evs self)).
Proof.
  induction evs as [|ev evs IH]; intros self Hcur; [exact Hcur|].
  cbn [run_events after]. now apply IH, dispatch_keeps_current.
Qed.

Lemma run_events_fields (E : RegexEngine) (evs : list ui_event) :
  forall self,
    regex_pattern (after (run_events E evs self)) =
      last_pattern evs (regex_pattern self) /\
    test_string (after (run_events E evs self)) =
      last_subject evs (test_string self).
Proof.
  induction evs as [|ev evs IH]; intros self; [split; reflexivity|].
  cbn [run_events after].
  destruct (IH (after (dispatch E ev self))) as [-> ->].
  destruct (dispatch_fields E ev self) as [-> ->].
  destruct ev; split; reflexivity.
Qed.

(** X8 (the display after notifications). After any sequence of
    notifications, either nothing changed at all or the display is current:
    status and document are what a recomputation from the two fields
    gives. A display that is current stays current. *)
Theorem events_keep_display_current (E : RegexEngine) (evs : list ui_event) :
  forall self,
    let final := after (run_events E evs self) in
    (final = self \/ display_current E final) /\
    (display_current E self -> display_current E final).
Proof.
  induction evs as [|ev evs IH]; intros self final; subst final.
  - cbn. split; [now left | trivial].
  - cbn [run_events after].
    destruct (IH (after (dispatch E ev self))) as [Hor Hkeep].
    destruct (dispatch_cases E ev self) as [Hnoop | (self' & Hrun)].
    + rewrite Hnoop in *. cbn [after] in *. split; assumption.
    + assert (Hcur : display_current E (after (dispatch E ev self)))
        by (rewrite Hrun; apply updated_display_current).
      split; [right | intros _]; now apply Hkeep.
Qed.

(** Right after [compose] the display is not current: the Markdown widget
    is empty, while a recomputation with both fields empty writes the
    "enter a pattern" placeholder. *)
Example mounted_not_current (E : RegexEngine) : ~ display_current E mounted.
Proof. unfold display_current. cbn. discriminate. Qed.

(** X9 (last write wins). After any sequence of notifications each field
    holds the value of the last notification delivered for it, or its old
    value when there was none; recomputations never write to the fields. *)
Theorem fields_follow_events (E : RegexEngine) (evs : list ui_event) :
  forall self,
    regex_pattern (after (run_events E evs self)) =
      last_pattern evs (regex_pattern self) /\
    test_string (after (run_events E evs self)) =
      last_subject evs (test_string self).
Proof.
  induction evs as [|ev evs IH]; intros self; [split; reflexivity|].
  cbn [run_events after].
  destruct (IH (after (dispatch E ev self))) as [Hp Hs].
  destruct (dispatch_fields E ev self) as [Hp1 Hs1].
  rewrite Hp, Hs, Hp1, Hs1. destruct ev; split; reflexivity.
Qed.

(** X10 (the display is that of the last values). From a current display,
    any sequence of notifications ends in exactly the state a single
    recomputation gives for the last pattern and the last subject. *)
Theorem events_show_last_values (E : RegexEngine) (evs : list ui_event) (self : App) :
  display_current E self ->
  after (run_events E evs self) =
  after (_update_matches E
           (set_test_string (last_subject evs (test_string self))
              (set_regex_pattern (last_pattern evs (regex_pattern self)) self))).
Proof.
  intros Hcur.
  pose proof (run_events_keep_current E evs self Hcur) as Hfinal.
  destruct (run_events_fields E evs self) as [Hp Hs].
  unfold display_current in Hfinal. rewrite <- Hfinal at 1.
  f_equal.
  rewrite (same_fields_same_display (after (run_events E evs self))
             (set_test_string (last_subject evs (test_string self))
                (set_regex_pattern (last_pattern evs (regex_pattern self)) self)))
    at 1 by (cbn; assumption).
  apply update_ignores_display.
Qed.

Lemma events_show_last_values_witness :
  let self := after (_update_matches Sample.engine (Sample.typed "foo" "bar")) in
  let evs := [InputChanged "[a-z]+"; TextAreaChanged "Hello World 123";
              InputChanged "[a-z]+"; TextAreaChanged "hi"] in
  display_current Sample.engine self /\
  after (run_events Sample.engine evs self) =
  after (_update_matches Sample.engine
           (set_test_string (last_subject evs (test_string self))
              (set_regex_pattern (last_pattern evs (regex_pattern self)) self))).
Proof.
  intros self evs.
  assert (Hcur : display_current Sample.engine self) by reflexivity.
  split; [exact Hcur | exact (events_show_last_values Sample.engine evs self Hcur)].
Defined.

(* ------------------------------------------------------------------ *)
(** ** Escaping and the size of the highlighted text *)
(* ------------------------------------------------------------------ *)

Lemma str_length_app (a b : string) :
  String.length (a ++ b) = String.length a + String.length b.
Proof. induction a as [|x a IH]; simpl; [reflexivity | now rewrite IH]. Qed.

Lemma count_special_app (a b : string) :
  count_special (a ++ b) = count_special a + count_special b.
Proof.
  induction a as [|x a IH]; [reflexivity|].
  cbn [append count_special]. rewrite IH. lia.
Qed.

Lemma escape_md_plain (s : string) : count_special s = 0 -> escape_md s = s.
Proof.
  induction s as [|c s IH]; [reflexivity|].
  cbn [count_special escape_md]. destruct (md_special c); [discriminate|].
  cbn. intros H. now rewrite IH.
Qed.

(** X11 (escaping loses nothing). Two different texts never have the same
    escaped text, and escaping leaves a text as it is exactly when the text
    has none of the twelve characters. *)
Theorem escape_md_faithful :
  (forall a b, escape_md a = escape_md b -> a = b) /\
  (forall s, escape_md s = s <-> count_special s = 0).
Proof.
  split.
  - intros a b H.
    rewrite <- (strip_escapes_escape_md a), <- (strip_escapes_escape_md b).
    now rewrite H.
  - intros s. split; [|apply escape_md_plain].
    intros H. pose proof (length_escape_md s) as Hlen. rewrite H in Hlen. lia.
Qed.

Lemma escape_md_faithful_witness :
  escape_md "Hello World 123" = "Hello World 123" /\ "a.b" = "a.b".
Proof.
  split.
  - apply (proj2 (proj2 escape_md_faithful "Hello World 123")). reflexivity.
  - apply (proj1 escape_md_faithful "a.b" "a.b"). reflexivity.
Defined.

Lemma highlighted_length_from (s : string) (ms : list MatchObj) :
  forall last,
    spans_chain last ms -> Forall (text_in_span s) ms ->
    String.length (join "" (parts_from s last ms ++
                            [escape_md (slice_from s (last_after last ms))])) =
    String.length (slice_from s last) + count_special (slice_from s last) +
    4 * List.length ms.
Proof.
  induction ms as [|m ms IH]; intros last Hchain Htext.
  - cbn [parts_from last_after app List.length]. rewrite join_empty_cons.
    change (join "" []) with "". rewrite str_app_nil_r, length_escape_md. lia.
  - destruct Hchain as (Hlo & Hrange & Hchain).
    inversion Htext as [|? ? Hm Hrest]; subst.
    specialize (IH (end_of m) Hchain Hrest).
    cbn [parts_from last_after List.length].
    rewrite <- !app_comm_cons, join_empty_cons, join_empty_cons.
    rewrite !str_length_app, IH, !length_escape_md.
    rewrite (slice_from_split s last (start_of m) Hlo).
    rewrite (slice_from_split s (start_of m) (end_of m) Hrange).
    rewrite !str_length_app, !count_special_app, <- Hm.
    change (String.length "**") with 2. lia.
Qed.

(** X12 (size of the highlighted text). For a match set produced for the
    subject, the highlighted text has the length of the subject, plus one
    character for each of its markup-significant characters, plus four for
    each match: nothing of the subject is dropped or written twice. *)
Theorem highlighted_length (subject : string) (ms : list MatchObj) :
  produced_for subject ms ->
  String.length (highlighted_output_for_markdown subject ms) =
  String.length subject + count_special subject + 4 * List.length ms.
Proof.
  intros [Hchain Htext]. unfold highlighted_output_for_markdown.
  rewrite all_parts_unfold, (highlighted_length_from subject ms 0 Hchain Htext).
  now rewrite slice_from_0.
Qed.

Lemma highlighted_length_witness :
  let ms := [mkMatch (1, 2) "*" [] []; mkMatch (3, 3) "" [] []] in
  produced_for "a*b" ms /\
  String.length (highlighted_output_for_markdown "a*b" ms) =
  String.length "a*b" + count_special "a*b" + 4 * List.length ms.
Proof.
  intros ms.
  assert (H : produced_for "a*b" ms).
  { split.
    - cbn. unfold start_of, end_of. cbn. lia.
    - repeat constructor. }
  split; [exact H | exact (highlighted_length _ _ H)].
Defined.

Lemma events_keep_display_current_witness :
  let self := after (_update_matches Sample.engine (Sample.typed "foo" "bar")) in
  let evs := [TextAreaChanged "bar"; InputChanged "("; TextAreaChanged ""] in
  display_current Sample.engine (after (run_events Sample.engine evs self)).
Proof.
  intros self evs.
  apply (proj2 (events_keep_display_current Sample.engine evs self)).
  reflexivity.
Defined.
